(** * voice_bat: the session loop of [app.py]

    [app.py] is a thin command-line driver around two external libraries:
    a speech-to-text model ([whisper]) and a microphone capture library
    ([speech_recognition]).  The only logic of the repository is the control
    flow of [convert_mode] and [listen_mode]: which file is written when, in
    which order, and what happens when one of the external calls raises.

    The embedding below is a small-step machine.  A configuration records
    the file system, what was printed, and the program point together with
    the local variables bound there.  Each step is the completion of the
    external call that is pending at that program point; the environment
    decides whether the call returns or raises. *)

From stdpp Require Import base gmap sets list strings.

Local Open Scope Z_scope.

(** ** Data *)

(** Paths, file contents (audio bytes as well as text) and printed lines
    are strings; the part of the file system the program can see is a
    finite map [gmap string string] from paths to file contents. *)

(** The Python exceptions that matter to the control flow.  Only
    [KeyboardInterrupt] is ever named by the source (line 65). *)
Inductive exn : Type :=
  | KeyboardInterrupt
  | OSError
  | FileNotFoundError
  | FileExistsError
  | RuntimeError.

Global Instance exn_eq_dec : EqDecision exn.
Proof. solve_decision. Defined.

(** What a call gives back: a value, or a raised exception. *)
Inductive result (A : Type) : Type :=
  | Ok (a : A)
  | Raise (e : exn).
Arguments Ok {A} a.
Arguments Raise {A} e.

(** What the environment does to the external call that is pending.
    [Returns v] lets the call complete; [v] is the datum the environment
    contributes to it: the WAV bytes delivered by [recognizer.listen], the
    random stem picked by [tempfile.NamedTemporaryFile], and nothing (it is
    ignored) for the other calls.  [Raises e] makes the call raise [e]
    without having had its effect.  [Raises KeyboardInterrupt] is Ctrl+C:
    Python turns the signal into that exception in the main thread, inside
    whichever call is running. *)
Inductive event : Type :=
  | Returns (v : string)
  | Raises (e : exn).

(** Program points, with the locals bound there.  Line numbers are those of
    [app.py]. *)
Inductive phase : Type :=
  (* listen_mode, inside the [try] of line 49 *)
  | Listening                                    (* 52: recognizer.listen pending *)
  | Saving (audio : string)                      (* 54-56: NamedTemporaryFile pending *)
  | Transcribing (audio temp_audio_file : string)          (* 58: model.transcribe pending *)
  | Appending (audio temp_audio_file transcription : string)  (* 60-62: open/write/close pending *)
  | Removing (audio temp_audio_file transcription : string)   (* 64: os.remove pending *)
  | Stopped                                      (* 66: KeyboardInterrupt handled, function returned *)
  (* convert_mode, no [try] *)
  | Converting (input_audio_file : string)       (* 74: model.transcribe pending *)
  | Writing (transcription : string)             (* 75-76: open/write/close pending *)
  | Finished                                     (* 77: function returned *)
  (* either mode *)
  | Aborted (e : exn).                           (* an exception left the function *)

Global Instance phase_eq_dec : EqDecision phase.
Proof. solve_decision. Defined.

Record config : Type := Config {
  fs : gmap string string;
  stdout : list string;
  at_ : phase
}.

(** ** Text helpers *)

Definition newline : string := String (Ascii.ascii_of_nat 10) EmptyString.

(** Python's [print(s)]: one more entry on standard output. *)
Definition print (s : string) (out : list string) : list string := out ++ [s].

(** [open(p, "a")] followed by [f.write(s)] and the close of the [with]
    block: the file is created when absent and [s] goes at its end. *)
Definition append_file (p s : string) (m : gmap string string) : gmap string string :=
  <[p := default EmptyString (m !! p) +:+ s]> m.

(** [open(p, "w")], [f.write(s)], close: whatever was there is replaced. *)
Definition write_file (p s : string) (m : gmap string string) : gmap string string :=
  <[p := s]> m.

(** The name built by [NamedTemporaryFile(suffix=".wav")]: directory,
    the prefix "tmp", the random stem and the suffix. *)
Definition temp_name (stem : string) : string :=
  "/tmp/tmp" +:+ stem +:+ ".wav".

(** The lines of a text file, as [f.read().splitlines()] restricted to the
    line feed gives them: every line feed ends a line, and a last piece
    without a line feed counts when it is not empty. *)
Fixpoint lines_from (cur s : string) : list string :=
  match s with
  | EmptyString => if decide (cur = EmptyString) then [] else [cur]
  | String c s' =>
      if decide (c = Ascii.ascii_of_nat 10)
      then cur :: lines_from EmptyString s'
      else lines_from (cur +:+ String c EmptyString) s'
  end.

Definition lines (s : string) : list string := lines_from EmptyString s.

(** Does the text contain a line feed? *)
Fixpoint has_newline (s : string) : bool :=
  match s with
  | EmptyString => false
  | String c s' => if decide (c = Ascii.ascii_of_nat 10) then true else has_newline s'
  end.

(** What a session appends for the texts [ts]: each followed by a line feed. *)
Fixpoint unlines (ts : list string) : string :=
  match ts with
  | [] => EmptyString
  | t :: ts' => t +:+ newline +:+ unlines ts'
  end.

(** ** The program *)

Section App.

(** The loaded model: what [model.transcribe] makes of the bytes of an
    audio file.  It is an external collaborator, so it is a parameter. *)
Variable whisper : string → result string.

(** [args.output_text]. *)
Variable output_text_file : string.

(** [transcribe_audio(model, audio_file)], lines 18-25, without its
    [print] (the machine prints when the call starts).  The model opens
    the file itself; a missing file makes it raise. *)
Definition transcribe_audio (m : gmap string string) (audio_file : string) : result string :=
  match m !! audio_file with
  | None => Raise RuntimeError
  | Some wav => whisper wav
  end.

(** Line 65-66: the only handler of the program. *)
Definition except_KeyboardInterrupt (c : config) (e : exn) : config :=
  match e with
  | KeyboardInterrupt =>
      Config (fs c)
             (print (newline +:+ "Interruption received. Exiting listening mode.") (stdout c))
             Stopped
  | _ => Config (fs c) (stdout c) (Aborted e)
  end.

(** An exception with no handler around it leaves the function. *)
Definition uncaught (c : config) (e : exn) : config :=
  Config (fs c) (stdout c) (Aborted e).

(** Back to the top of [while True] (line 50): [record_audio_chunk]
    prints and blocks in [recognizer.listen]. *)
Definition next_iteration (m : gmap string string) (out : list string) : config :=
  Config m (print "Waiting for speech... (Ctrl+C to exit)" out) Listening.

Definition step (c : config) (ev : event) : config :=
  match at_ c, ev with
  (* terminal program points: the process is gone *)
  | Stopped, _ | Finished, _ | Aborted _, _ => c
  (* listen_mode: everything is inside the try block *)
  | Listening, Returns audio => Config (fs c) (stdout c) (Saving audio)
  | Saving audio, Returns stem =>
      let temp_audio_file := temp_name stem in
      match fs c !! temp_audio_file with
      | Some _ => c   (* the name is taken: the library draws another one *)
      | None =>
          Config (<[temp_audio_file := audio]> (fs c))
                 (print ("Transcribing audio file: " +:+ temp_audio_file) (stdout c))
                 (Transcribing audio temp_audio_file)
      end
  | Transcribing audio temp_audio_file, Returns _ =>
      match transcribe_audio (fs c) temp_audio_file with
      | Ok transcription =>
          Config (fs c) (stdout c) (Appending audio temp_audio_file transcription)
      | Raise e => except_KeyboardInterrupt c e
      end
  | Appending audio temp_audio_file transcription, Returns _ =>
      Config (append_file output_text_file (transcription +:+ newline) (fs c))
             (print ("Recognized: " +:+ transcription) (stdout c))
             (Removing audio temp_audio_file transcription)
  | Removing audio temp_audio_file transcription, Returns _ =>
      match fs c !! temp_audio_file with
      | Some _ => next_iteration (delete temp_audio_file (fs c)) (stdout c)
      | None => except_KeyboardInterrupt c FileNotFoundError
      end
  | Listening, Raises e | Saving _, Raises e | Transcribing _ _, Raises e
  | Appending _ _ _, Raises e | Removing _ _ _, Raises e =>
      except_KeyboardInterrupt c e
  (* convert_mode: no handler *)
  | Converting input_audio_file, Returns _ =>
      match transcribe_audio (fs c) input_audio_file with
      | Ok transcription => Config (fs c) (stdout c) (Writing transcription)
      | Raise e => uncaught c e
      end
  | Writing transcription, Returns _ =>
      Config (write_file output_text_file transcription (fs c))
             (print ("Transcription result saved to file: " +:+ output_text_file) (stdout c))
             Finished
  | Converting _, Raises e | Writing _, Raises e => uncaught c e
  end.

(** The machine on a whole schedule of environment responses. *)
Definition run (c : config) (evs : list event) : config := foldl step c evs.

(** [load_model()], lines 9-15, as far as standard output goes. *)
Definition load_model (out : list string) : list string :=
  print "Loading Whisper model (this may take some time)..." out.

(** [listen_mode(output_text_file, model)] up to its first blocking call
    (lines 44-52). *)
Definition listen_mode (m : gmap string string) (out : list string) : config :=
  next_iteration m
    (print "Press Ctrl+C to exit."
       (print "Starting listening mode. Speak, and the result will be saved to a file." out)).

(** [convert_mode(input_audio_file, output_text_file, model)] up to its
    first blocking call (line 74, inside [transcribe_audio]). *)
Definition convert_mode (input_audio_file : string) (m : gmap string string)
    (out : list string) : config :=
  Config m (print ("Transcribing audio file: " +:+ input_audio_file) out)
         (Converting input_audio_file).

(** [args.mode] with the positional argument that is particular to it
    (lines 84-93); [args.output_text] is common to both subcommands. *)
Inductive mode : Type :=
  | listen
  | convert (input_audio : string).

(** [main()], lines 80-103, up to the first blocking call of the mode
    function: the model is loaded once, then the mode is dispatched. *)
Definition main (md : mode) (m : gmap string string) : config :=
  match md with
  | listen => listen_mode m (load_model [])
  | convert input_audio => convert_mode input_audio m (load_model [])
  end.

(** The exit status of the process once the mode function is over:
    [main] returns and the interpreter exits with 0, or the exception
    reaches the top level.  [None] while the program is still running. *)
Definition exit_code (p : phase) : option Z :=
  match p with
  | Stopped | Finished => Some 0
  | Aborted KeyboardInterrupt => Some 130
  | Aborted _ => Some 1
  | _ => None
  end.

(** One full pass through the loop body as the environment sees it:
    a segment is heard, a temporary name is drawn, and the three
    remaining calls return. *)
Definition iteration (audio stem : string) : list event :=
  [Returns audio; Returns stem; Returns EmptyString; Returns EmptyString; Returns EmptyString].

(** The temporary audio file the current iteration owns, if any. *)
Definition owned_temp (p : phase) : gset string :=
  match p with
  | Transcribing _ t | Appending _ t _ | Removing _ t _ => {[ t ]}
  | _ => ∅
  end.


(** The program points of the listen loop that are still running. *)
Definition in_loop (p : phase) : bool :=
  match p with
  | Listening | Saving _ | Transcribing _ _ | Appending _ _ _ | Removing _ _ _ => true
  | _ => false
  end.

(** Once the mode function is over nothing happens any more. *)
Definition terminal (p : phase) : bool :=
  match p with
  | Stopped | Finished | Aborted _ => true
  | _ => false
  end.

(** A session is a list of iterations: the segment heard and the stem
    drawn for its temporary file. *)
Fixpoint session (its : list (string * string)) : list event :=
  match its with
  | [] => []
  | it :: its' => iteration it.1 it.2 ++ session its'
  end.

(** The temporary names of the session never meet an existing file, nor
    the output file. *)
Definition fresh_stems (m : gmap string string) (its : list (string * string)) : Prop :=
  Forall (λ it, m !! temp_name it.2 = None ∧ temp_name it.2 ≠ output_text_file) its.

(** What the engine makes of each segment. *)
Definition transcribed (its : list (string * string)) (ts : list string) : Prop :=
  Forall2 (λ it t, whisper it.1 = Ok t) its ts.

(** What holds at every moment of a listen session.  [m0] is the file
    system the session started with.  Beyond those files and the output
    file there is at most the temporary file the running iteration owns;
    while a transcription is pending that file holds the segment; once
    the line is appended the output file ends with it. *)
Definition session_inv (m0 : gmap string string) (c : config) : Prop :=
  (∃ X : gset string,
      dom (fs c) ⊆ dom m0 ∪ {[output_text_file]} ∪ X
      ∧ (size X ≤ 1)%nat
      ∧ (in_loop (at_ c) = true → X = owned_temp (at_ c)))
  ∧ match at_ c with
    | Transcribing a t => fs c !! t = Some a
    | Appending a t x => whisper a = Ok x ∧ is_Some (fs c !! t)
    | Removing a t x =>
        whisper a = Ok x ∧ is_Some (fs c !! t)
        ∧ ∃ prior, fs c !! output_text_file = Some (prior +:+ x +:+ newline)
    | Converting _ | Writing _ | Finished => False
    | Listening | Saving _ | Stopped | Aborted _ => True
    end.

(** A stand-in engine for concrete runs: it recognises a few recordings
    by their bytes and hears nothing in anything else. *)
Definition toy_whisper (wav : string) : result string :=
  if decide (wav = "RIFFhello") then Ok "hello"
  else if decide (wav = "RIFFworld") then Ok "world"
  else if decide (wav = "RIFFdictation") then Ok ("first" +:+ newline +:+ "second")
  else if decide (wav = "RIFFcorrupt") then Raise RuntimeError
  else Ok EmptyString.

(** [strip_prefix p s] is what follows [p] in [s], when [s] starts
    with [p]. *)
Fixpoint strip_prefix (p s : string) : option string :=
  match p, s with
  | EmptyString, _ => Some s
  | String a p', String b s' => if decide (a = b) then strip_prefix p' s' else None
  | String _ _, EmptyString => None
  end.

(** The texts echoed on standard output by line 62, in the order they
    were printed. *)
Definition recognized (out : list string) : list string :=
  omap (strip_prefix "Recognized: ") out.


(** The program is in a listen session, and the temporary file of the
    running iteration carries a name made by [NamedTemporaryFile]. *)
Definition temp_named (p : phase) : Prop :=
  match p with
  | Transcribing _ t | Appending _ t _ | Removing _ t _ => ∃ stem, t = temp_name stem
  | Converting _ | Writing _ | Finished => False
  | Listening | Saving _ | Stopped | Aborted _ => True
  end.

(** What the console shows last at a program point that prints on entry. *)
Definition console_shows (p : phase) : option string :=
  match p with
  | Listening => Some "Waiting for speech... (Ctrl+C to exit)"
  | Transcribing _ t => Some ("Transcribing audio file: " +:+ t)
  | Removing _ _ x => Some ("Recognized: " +:+ x)
  | Stopped => Some (newline +:+ "Interruption received. Exiting listening mode.")
  | Converting i => Some ("Transcribing audio file: " +:+ i)
  | Finished => Some ("Transcription result saved to file: " +:+ output_text_file)
  | _ => None
  end.


(** The program points a convert run can be at. *)
Definition converting (p : phase) : bool :=
  match p with
  | Converting _ | Writing _ | Finished | Aborted _ => true
  | _ => false
  end.

Arguments transcribe_audio m audio_file : simpl never.

(** ** Strings *)

Lemma string_app_nil_l (s : string) : EmptyString +:+ s = s.
Proof. reflexivity. Qed.

Lemma string_app_cons (c : Ascii.ascii) (s r : string) :
  String c s +:+ r = String c (s +:+ r).
Proof. reflexivity. Qed.

Lemma string_app_nil_r (s : string) : s +:+ EmptyString = s.
Proof. induction s as [|c s IH]; [done|]. by rewrite string_app_cons, IH. Qed.

Lemma string_app_assoc (a b c : string) : (a +:+ b) +:+ c = a +:+ (b +:+ c).
Proof.
  induction a as [|x a IH]; [done|]. by rewrite !string_app_cons, IH.
Qed.

(** A text without line feed, followed by one, is one line. *)
Lemma lines_from_text (t cur rest : string) :
  has_newline t = false →
  lines_from cur (t +:+ newline +:+ rest) = (cur +:+ t) :: lines_from EmptyString rest.
Proof.
  revert cur. induction t as [|c t IH]; intros cur Hnl.
  - rewrite string_app_nil_l, string_app_nil_r. unfold newline.
    rewrite string_app_cons, string_app_nil_l.
    cbn [lines_from]. by rewrite decide_True.
  - cbn [has_newline] in Hnl. destruct (decide (c = Ascii.ascii_of_nat 10)) as [|Hc]; [done|].
    rewrite string_app_cons. cbn [lines_from]. rewrite decide_False by done.
    rewrite IH by done. by rewrite string_app_assoc, string_app_cons, string_app_nil_l.
Qed.

(** Reading back what a session wrote into an empty file. *)
Lemma lines_unlines (ts : list string) :
  Forall (λ t, has_newline t = false) ts → lines (unlines ts) = ts.
Proof.
  unfold lines. induction 1 as [|t ts Ht _ IH]; [done|].
  cbn [unlines]. rewrite lines_from_text by done. by rewrite string_app_nil_l, IH.
Qed.

(** ** The machine *)

Lemma run_nil (c : config) : run c [] = c.
Proof. reflexivity. Qed.

Lemma run_cons (c : config) (ev : event) (evs : list event) :
  run c (ev :: evs) = run (step c ev) evs.
Proof. reflexivity. Qed.

Lemma run_app (c : config) (evs1 evs2 : list event) :
  run c (evs1 ++ evs2) = run (run c evs1) evs2.
Proof. apply foldl_app. Qed.

Lemma run_snoc (c : config) (evs : list event) (ev : event) :
  run c (evs ++ [ev]) = step (run c evs) ev.
Proof. by rewrite run_app. Qed.

Lemma step_terminal (c : config) (ev : event) :
  terminal (at_ c) = true → step c ev = c.
Proof. destruct c as [m so p]; destruct p; try done; by destruct ev. Qed.

Lemma run_terminal (c : config) (evs : list event) :
  terminal (at_ c) = true → run c evs = c.
Proof.
  intros Ht. induction evs as [|ev evs IH]; [done|].
  by rewrite run_cons, step_terminal.
Qed.

Lemma terminal_exit (p : phase) : terminal p = true ↔ is_Some (exit_code p).
Proof.
  destruct p as [| | | | | | | | |e]; cbn; try destruct e;
    split; (done || (by intros [? [=]]) || eauto).
Qed.

Lemma transcribe_audio_missing (m : gmap string string) (p : string) :
  m !! p = None → transcribe_audio m p = Raise RuntimeError.
Proof. unfold transcribe_audio. by intros ->. Qed.

Lemma transcribe_audio_present (m : gmap string string) (p wav : string) :
  m !! p = Some wav → transcribe_audio m p = whisper wav.
Proof. unfold transcribe_audio. by intros ->. Qed.

(** The engine only looks at the file it is given. *)
Lemma transcribe_audio_ext (m m' : gmap string string) (p : string) :
  m' !! p = m !! p → transcribe_audio m' p = transcribe_audio m p.
Proof. unfold transcribe_audio. by intros ->. Qed.

(** *** convert_mode *)

Lemma convert_ok (input t : string) (m : gmap string string) (so : list string)
    (v1 v2 : string) :
  transcribe_audio m input = Ok t →
  run (convert_mode input m so) [Returns v1; Returns v2]
  = Config (<[output_text_file := t]> m)
      (print ("Transcription result saved to file: " +:+ output_text_file)
         (print ("Transcribing audio file: " +:+ input) so))
      Finished.
Proof.
  intros Ht. unfold convert_mode, run. cbn [foldl].
  unfold step at 2. cbn [at_ fs stdout]. rewrite Ht.
  reflexivity.
Qed.

Lemma convert_raise (input : string) (e : exn) (m : gmap string string)
    (so : list string) (v : string) (evs : list event) :
  transcribe_audio m input = Raise e →
  run (convert_mode input m so) (Returns v :: evs)
  = Config m (print ("Transcribing audio file: " +:+ input) so) (Aborted e).
Proof.
  intros Ht. rewrite run_cons. unfold convert_mode, step.
  cbn [at_ fs stdout]. rewrite Ht. by apply run_terminal.
Qed.


(** *** listen_mode: one full iteration *)

Lemma step_Listening (m : gmap string string) (so : list string) (audio : string) :
  step (Config m so Listening) (Returns audio) = Config m so (Saving audio).
Proof. reflexivity. Qed.

Lemma step_Saving (m : gmap string string) (so : list string) (audio stem : string) :
  m !! temp_name stem = None →
  step (Config m so (Saving audio)) (Returns stem)
  = Config (<[temp_name stem := audio]> m)
      (print ("Transcribing audio file: " +:+ temp_name stem) so)
      (Transcribing audio (temp_name stem)).
Proof. intros H. unfold step. cbn [at_ fs stdout]. by rewrite H. Qed.

Lemma step_Saving_taken (m : gmap string string) (so : list string) (audio stem : string) :
  is_Some (m !! temp_name stem) →
  step (Config m so (Saving audio)) (Returns stem) = Config m so (Saving audio).
Proof. intros [x H]. unfold step. cbn [at_ fs stdout]. by rewrite H. Qed.

Lemma step_Transcribing (m : gmap string string) (so : list string)
    (audio tmp v : string) :
  step (Config m so (Transcribing audio tmp)) (Returns v)
  = match transcribe_audio m tmp with
    | Ok t => Config m so (Appending audio tmp t)
    | Raise e => except_KeyboardInterrupt (Config m so (Transcribing audio tmp)) e
    end.
Proof. reflexivity. Qed.

Lemma step_Appending (m : gmap string string) (so : list string)
    (audio tmp t v : string) :
  step (Config m so (Appending audio tmp t)) (Returns v)
  = Config (append_file output_text_file (t +:+ newline) m)
      (print ("Recognized: " +:+ t) so) (Removing audio tmp t).
Proof. reflexivity. Qed.

Lemma step_Removing (m : gmap string string) (so : list string)
    (audio tmp t v : string) :
  is_Some (m !! tmp) →
  step (Config m so (Removing audio tmp t)) (Returns v)
  = next_iteration (delete tmp m) so.
Proof. intros [x H]. unfold step. cbn [at_ fs stdout]. by rewrite H. Qed.

Lemma step_Raises (c : config) (e : exn) :
  in_loop (at_ c) = true → step c (Raises e) = except_KeyboardInterrupt c e.
Proof. destruct c as [m so p]; by destruct p. Qed.

Lemma iteration_ok (audio stem t : string) (m : gmap string string) (so : list string) :
  whisper audio = Ok t →
  m !! temp_name stem = None →
  temp_name stem ≠ output_text_file →
  run (Config m so Listening) (iteration audio stem)
  = next_iteration (append_file output_text_file (t +:+ newline) m)
      (print ("Recognized: " +:+ t)
         (print ("Transcribing audio file: " +:+ temp_name stem) so)).
Proof.
  intros Hw Hfresh Hne. unfold iteration. rewrite !run_cons, run_nil.
  rewrite step_Listening, step_Saving, step_Transcribing by done.
  rewrite (transcribe_audio_present _ _ audio) by apply lookup_insert_eq.
  rewrite Hw, step_Appending, step_Removing.
  - f_equal. unfold append_file. rewrite lookup_insert_ne by done.
    rewrite delete_insert_ne by done. by rewrite delete_insert_id.
  - unfold append_file. rewrite lookup_insert_ne, lookup_insert_eq by done. eauto.
Qed.

Lemma append_file_lookup (p s : string) (m : gmap string string) :
  append_file output_text_file s m !! p
  = if decide (output_text_file = p)
    then Some (default EmptyString (m !! output_text_file) +:+ s)
    else m !! p.
Proof. unfold append_file. by rewrite lookup_insert. Qed.

Lemma session_ok (its : list (string * string)) (ts : list string)
    (m : gmap string string) (so : list string) :
  transcribed its ts →
  fresh_stems m its →
  ∃ c, run (Config m so Listening) (session its) = c
       ∧ at_ c = Listening
       ∧ (∀ p, p ≠ output_text_file → fs c !! p = m !! p)
       ∧ default EmptyString (fs c !! output_text_file)
         = default EmptyString (m !! output_text_file) +:+ unlines ts
       ∧ (its ≠ [] → is_Some (fs c !! output_text_file)).
Proof.
  intros Hts. revert m so. induction Hts as [|[a stem] t its ts Ht _ IH]; intros m so Hfresh.
  - eexists; split; [reflexivity|]. cbn. rewrite string_app_nil_r. done.
  - apply Forall_cons in Hfresh as [[Hnew Hne] Hfresh]. cbn [fst snd] in *.
    cbn [session fst snd]. rewrite run_app, (iteration_ok _ _ t) by done.
    unfold next_iteration.
    edestruct (IH (append_file output_text_file (t +:+ newline) m)) as (c & Hc & Hat & Hoth & Hout & _).
    { eapply Forall_impl; [exact Hfresh|]. intros [a' s'] [Hn' Hne']. cbn [snd] in *.
      split; [|done]. rewrite append_file_lookup. by rewrite decide_False. }
    eexists; split; [exact Hc|]. split; [done|]. split; [|split].
    + intros p Hp. rewrite Hoth by done. rewrite append_file_lookup. by rewrite decide_False.
    + rewrite Hout. rewrite append_file_lookup, decide_True by done.
      cbn [default from_option id unlines]. by rewrite !string_app_assoc.
    + intros _. destruct (fs c !! output_text_file) as [x|] eqn:Hx; [eauto|].
      exfalso. rewrite append_file_lookup, decide_True in Hout by done.
      cbn [default from_option id] in Hout. symmetry in Hout.
      destruct (default EmptyString (m !! output_text_file)); destruct t; discriminate Hout.
Qed.

(** The same, for a session from its start. *)
Lemma listen_session_ok (its : list (string * string)) (ts : list string)
    (m : gmap string string) (so : list string) :
  transcribed its ts →
  fresh_stems m its →
  at_ (run (listen_mode m so) (session its)) = Listening
  ∧ (∀ p, p ≠ output_text_file → fs (run (listen_mode m so) (session its)) !! p = m !! p)
  ∧ default EmptyString (fs (run (listen_mode m so) (session its)) !! output_text_file)
    = default EmptyString (m !! output_text_file) +:+ unlines ts.
Proof.
  intros Hts Hfresh. unfold listen_mode, next_iteration.
  edestruct session_ok as (c & -> & Hat & Hoth & Hout & _); [exact Hts|exact Hfresh|].
  done.
Qed.

(** *** The invariant of a listen session *)

Lemma except_inv (m0 : gmap string string) (c : config) (e : exn) :
  session_inv m0 c → session_inv m0 (except_KeyboardInterrupt c e).
Proof.
  intros [(X & Hdom & Hsz & _) _]. split.
  - exists X. by destruct e.
  - by destruct e.
Qed.

Lemma listen_mode_inv (m0 : gmap string string) (so : list string) :
  session_inv m0 (listen_mode m0 so).
Proof.
  split; [|done]. exists ∅. cbn. split; [set_solver|]. split; [|done].
  rewrite size_empty. lia.
Qed.

Lemma step_inv (m0 : gmap string string) (c : config) (ev : event) :
  session_inv m0 c → session_inv m0 (step c ev).
Proof.
  intros Hinv. destruct ev as [v|e].
  2:{ destruct (in_loop (at_ c)) eqn:Hloop.
      - rewrite step_Raises by done. by apply except_inv.
      - destruct c as [m so p]. destruct p; try done. all: by destruct Hinv. }
  destruct c as [m so p], Hinv as [(X & Hdom & Hsz & HX) Hp].
  cbn [at_ fs] in *. destruct p as [|a|a t|a t x|a t x| | | | |e]; try done.
  - (* Listening *)
    rewrite step_Listening. split; [|done]. exists X. cbn [at_ fs] in *. auto.
  - (* Saving *)
    destruct (m !! temp_name v) as [w|] eqn:Hv.
    + rewrite step_Saving_taken by eauto. split; [|done]. exists X. auto.
    + rewrite step_Saving by done. split; [|apply lookup_insert_eq].
      exists {[temp_name v]}. cbn [at_ fs owned_temp]. rewrite dom_insert_L.
      specialize (HX eq_refl). cbn in HX. subst X.
      split; [set_solver|]. split; [|done]. by rewrite size_singleton.
  - (* Transcribing *)
    rewrite step_Transcribing, (transcribe_audio_present _ _ a) by done.
    destruct (whisper a) as [x|e] eqn:Hw.
    + split; [exists X; auto|]. cbn. eauto.
    + apply except_inv. split; [exists X; auto|done].
  - (* Appending *)
    rewrite step_Appending. destruct Hp as [Hw Hsome]. split.
    + exists X. cbn [at_ fs]. unfold append_file. rewrite dom_insert_L.
      split; [set_solver|]. auto.
    + cbn [at_ fs]. split; [done|]. split.
      * rewrite append_file_lookup. case_decide; eauto.
      * exists (default EmptyString (m !! output_text_file)).
        by rewrite append_file_lookup, decide_True.
  - (* Removing *)
    destruct Hp as (Hw & Hsome & _). rewrite step_Removing by done.
    split; [|done]. exists ∅. cbn [at_ fs next_iteration owned_temp].
    rewrite dom_delete_L. specialize (HX eq_refl). cbn in HX. subst X.
    split; [set_solver|]. split; [|done]. rewrite size_empty. lia.
  - (* Stopped *)
    rewrite step_terminal by done. split; [exists X; auto|done].
  - (* Aborted *)
    rewrite step_terminal by done. split; [exists X; auto|done].
Qed.

Lemma run_inv (m0 : gmap string string) (c : config) (evs : list event) :
  session_inv m0 c → session_inv m0 (run c evs).
Proof.
  revert c. induction evs as [|ev evs IH]; intros c Hc; [done|].
  rewrite run_cons. by apply IH, step_inv.
Qed.

Lemma session_inv_reach (m0 : gmap string string) (so : list string) (evs : list event) :
  session_inv m0 (run (listen_mode m0 so) evs).
Proof. apply run_inv, listen_mode_inv. Qed.

Lemma exit_code_Aborted (e : exn) : ∃ n, exit_code (Aborted e) = Some n ∧ n ≠ 0.
Proof. destruct e; cbn; eauto with lia. Qed.

Lemma except_other (c : config) (e : exn) :
  e ≠ KeyboardInterrupt →
  except_KeyboardInterrupt c e = Config (fs c) (stdout c) (Aborted e).
Proof. by destruct e. Qed.

(** A step never removes a file, except [os.remove] at line 64. *)
Lemma step_keeps_files (c : config) (ev : event) (p : string) :
  is_Some (fs c !! p) → fs (step c ev) !! p = None →
  ∃ a x v, at_ c = Removing a p x ∧ ev = Returns v.
Proof.
  intros Hp Hgone. destruct c as [m so ph]. cbn [fs at_] in *.
  destruct ev as [v|e].
  2:{ exfalso. destruct ph; cbn in Hgone; try destruct e; cbn in Hgone;
      rewrite Hgone in Hp; by destruct Hp. }
  destruct ph as [|a|a t|a t x|a t x| | i|x| |e].
  - rewrite step_Listening in Hgone. cbn in Hgone. rewrite Hgone in Hp. by destruct Hp.
  - exfalso. destruct (m !! temp_name v) as [w|] eqn:Hv.
    + rewrite step_Saving_taken in Hgone by eauto. cbn in Hgone.
      rewrite Hgone in Hp. by destruct Hp.
    + rewrite step_Saving in Hgone by done. cbn [fs] in Hgone.
      apply lookup_insert_None in Hgone as [Hgone _]. rewrite Hgone in Hp. by destruct Hp.
  - exfalso. rewrite step_Transcribing in Hgone.
    destruct (transcribe_audio m t) as [x|e]; [|destruct e]; cbn in Hgone;
      rewrite Hgone in Hp; by destruct Hp.
  - exfalso. rewrite step_Appending in Hgone. cbn [fs] in Hgone.
    unfold append_file in Hgone. apply lookup_insert_None in Hgone as [Hgone _].
    rewrite Hgone in Hp. by destruct Hp.
  - destruct (decide (t = p)) as [->|Hne]; [eauto|]. exfalso.
    unfold step in Hgone. cbn [at_ fs stdout] in Hgone.
    destruct (m !! t) as [w|]; cbn [fs next_iteration except_KeyboardInterrupt] in Hgone.
    + rewrite lookup_delete_ne in Hgone by done. rewrite Hgone in Hp. by destruct Hp.
    + rewrite Hgone in Hp. by destruct Hp.
  - cbn in Hgone. rewrite Hgone in Hp. by destruct Hp.
  - exfalso. unfold step in Hgone. cbn [at_ fs stdout] in Hgone.
    destruct (transcribe_audio m i); cbn in Hgone; rewrite Hgone in Hp; by destruct Hp.
  - exfalso. unfold step in Hgone. cbn [at_ fs stdout] in Hgone.
    unfold write_file in Hgone. apply lookup_insert_None in Hgone as [Hgone _].
    rewrite Hgone in Hp. by destruct Hp.
  - cbn in Hgone. rewrite Hgone in Hp. by destruct Hp.
  - cbn in Hgone. rewrite Hgone in Hp. by destruct Hp.
Qed.

(** ** The properties of convert mode *)

(** C1. Whenever the engine succeeds on the input file, convert mode ends
    normally with the output file holding exactly the engine's text: no
    line feed is added, what the file held before is gone, and no other
    file changes.  The result depends on the input file only: any run on
    the same input audio gives the same output contents, and so does a
    second run after the first one. *)
Theorem convert_writes_transcription (input t : string) (m : gmap string string)
    (so : list string) (v1 v2 : string) :
  transcribe_audio m input = Ok t →
  let c := run (convert_mode input m so) [Returns v1; Returns v2] in
  at_ c = Finished
  ∧ exit_code (at_ c) = Some 0
  ∧ fs c !! output_text_file = Some t
  ∧ fs c = write_file output_text_file t m
  ∧ (∀ (m' : gmap string string) (so' : list string),
       m' !! input = m !! input →
       fs (run (convert_mode input m' so') [Returns v1; Returns v2]) !! output_text_file
       = fs c !! output_text_file)
  ∧ (input ≠ output_text_file →
       fs (run (convert_mode input (fs c) (stdout c)) [Returns v1; Returns v2]) = fs c).
Proof.
  intros Ht c. unfold c. rewrite (convert_ok _ t) by done. cbn [at_ fs stdout exit_code].
  unfold write_file. rewrite lookup_insert_eq.
  repeat split; try done.
  - intros m' so' Hsame. rewrite (convert_ok _ t).
    + cbn [fs]. by rewrite lookup_insert_eq.
    + rewrite <- Ht. by apply transcribe_audio_ext.
  - intros Hne. rewrite (convert_ok _ t).
    + cbn [fs]. by rewrite insert_insert_eq.
    + rewrite <- Ht. apply transcribe_audio_ext. by rewrite lookup_insert_ne.
Qed.

(** C4. When the input file cannot be read (it does not exist) or the
    engine raises on it, convert mode is over with the exception
    uncaught: the exit status is not zero and the file system is what it
    was, so the output file is neither created nor modified. *)
Theorem convert_failure_writes_nothing (input : string) (e : exn)
    (m : gmap string string) (so : list string) (v : string) (evs : list event) :
  (m !! input = None ∧ e = RuntimeError)
  ∨ (∃ wav, m !! input = Some wav ∧ whisper wav = Raise e) →
  let c := run (convert_mode input m so) (Returns v :: evs) in
  at_ c = Aborted e
  ∧ (∃ n, exit_code (at_ c) = Some n ∧ n ≠ 0)
  ∧ fs c = m
  ∧ fs c !! output_text_file = m !! output_text_file.
Proof.
  intros Hfail c.
  assert (transcribe_audio m input = Raise e) as Ht.
  { destruct Hfail as [[Hnone ->]|(wav & Hsome & Hw)].
    - by apply transcribe_audio_missing.
    - by rewrite (transcribe_audio_present _ _ wav). }
  unfold c. rewrite (convert_raise _ e) by done. cbn [at_ fs].
  split; [done|]. split; [apply exit_code_Aborted|done].
Qed.

(** C7. Silence.  When the engine returns the empty text, convert mode
    leaves an empty output file, and one listen iteration appends a lone
    line feed to the output file: one empty line. *)
Theorem silence_gives_empty_text (input audio stem : string) (m : gmap string string)
    (so : list string) (v1 v2 : string) :
  transcribe_audio m input = Ok EmptyString →
  whisper audio = Ok EmptyString →
  m !! temp_name stem = None →
  temp_name stem ≠ output_text_file →
  fs (run (convert_mode input m so) [Returns v1; Returns v2]) !! output_text_file
  = Some EmptyString
  ∧ let c := run (listen_mode m so) (iteration audio stem) in
    at_ c = Listening
    ∧ fs c !! output_text_file
      = Some (default EmptyString (m !! output_text_file) +:+ newline)
    ∧ (∀ p, p ≠ output_text_file → fs c !! p = m !! p)
    ∧ (m !! output_text_file = None →
       lines (default EmptyString (fs c !! output_text_file)) = [EmptyString]).
Proof.
  intros Hconv Hw Hfresh Hne. split.
  - rewrite (convert_ok _ EmptyString) by done. cbn [fs]. apply lookup_insert_eq.
  - intros c. unfold c, listen_mode, next_iteration.
    rewrite (iteration_ok _ _ EmptyString) by done.
    unfold next_iteration. cbn [at_ fs]. rewrite string_app_nil_l.
    split; [done|]. split; [|split].
    + by rewrite append_file_lookup, decide_True.
    + intros p Hp. by rewrite append_file_lookup, decide_False.
    + intros Hnone. rewrite append_file_lookup, decide_True by done.
      rewrite Hnone. reflexivity.
Qed.

(** ** The properties of listen mode *)

(** C2, as the code has it.  A session of N captured segments appends to
    what the output file already held (nothing, when it did not exist)
    the engine's text of each segment followed by a line feed, in capture
    order, and touches no other file.  When the file was absent or empty
    and no text contains a line feed, the file then has exactly N lines,
    the i-th being the engine's text of the i-th segment. *)
Theorem listen_appends_in_capture_order (its : list (string * string))
    (ts : list string) (m : gmap string string) (so : list string) :
  transcribed its ts →
  fresh_stems m its →
  let c := run (listen_mode m so) (session its) in
  at_ c = Listening
  ∧ default EmptyString (fs c !! output_text_file)
    = default EmptyString (m !! output_text_file) +:+ unlines ts
  ∧ (∀ p, p ≠ output_text_file → fs c !! p = m !! p)
  ∧ (default EmptyString (m !! output_text_file) = EmptyString →
     Forall (λ t, has_newline t = false) ts →
     lines (default EmptyString (fs c !! output_text_file)) = ts
     ∧ length (lines (default EmptyString (fs c !! output_text_file))) = length its).
Proof.
  intros Hts Hfresh c.
  destruct (listen_session_ok its ts m so Hts Hfresh) as (Hat & Hoth & Hout).
  fold c in Hat, Hoth, Hout.
  split; [done|]. split; [done|]. split; [done|].
  intros Hempty Hnl. rewrite Hout, Hempty, string_app_nil_l, lines_unlines by done.
  split; [done|]. symmetry. by eapply Forall2_length.
Qed.

(** C3, as the code has it.  The temporary file is deleted by the last
    statement of the loop body, which is reached when transcription and
    append have succeeded: [os.remove] takes the file away, and whenever
    the loop is back at its top no file exists beyond those of the start
    and the output file.  When the transcription or the append raises, or
    is interrupted, the session is over and the temporary file stays. *)
Theorem temp_file_removed_at_end_of_iteration (m : gmap string string)
    (so : list string) (evs : list event) :
  let c := run (listen_mode m so) evs in
  (∀ a t x v, at_ c = Removing a t x →
     at_ (step c (Returns v)) = Listening ∧ fs (step c (Returns v)) !! t = None)
  ∧ (at_ c = Listening → dom (fs c) ⊆ dom m ∪ {[output_text_file]})
  ∧ (∀ a t x e, at_ c = Transcribing a t ∨ at_ c = Appending a t x →
       terminal (at_ (step c (Raises e))) = true
       ∧ is_Some (fs (step c (Raises e)) !! t))
  ∧ (∀ a t v e, at_ c = Transcribing a t → whisper a = Raise e →
       terminal (at_ (step c (Returns v))) = true
       ∧ fs (step c (Returns v)) !! t = Some a).
Proof.
  intros c. pose proof (session_inv_reach m so evs) as Hinv. fold c in Hinv.
  destruct c as [mc soc p]. destruct Hinv as [(X & Hdom & Hsz & HX) Hp].
  cbn [at_ fs] in *. split; [|split; [|split]].
  - intros a t x v ->. destruct Hp as (_ & Hsome & _).
    rewrite step_Removing by done. split; [done|]. apply lookup_delete_eq.
  - intros ->. specialize (HX eq_refl). cbn in HX. subst X. set_solver.
  - intros a t x e Hat. rewrite step_Raises by (by destruct Hat as [->| ->]).
    split; [by destruct e|]. destruct Hat as [->| ->]; cbn in Hp.
    + destruct e; cbn; rewrite Hp; eauto.
    + destruct Hp as [_ Hsome]. by destruct e.
  - intros a t v e -> Hw. cbn in Hp.
    rewrite step_Transcribing, (transcribe_audio_present _ _ a), Hw by done.
    by destruct e.
Qed.

(** C5, as the code has it.  The loop has no flag that it tests between
    iterations: Ctrl+C is the exception [KeyboardInterrupt], raised in
    whichever call is pending, and the [try] block spans the whole loop.
    So at every program point of the loop, capture and transcription
    included, the interrupt ends the pending call at once and the loop is
    stopped, the file system being left as it was at that moment. *)
Theorem interrupt_stops_the_pending_call (m : gmap string string)
    (so : list string) (evs : list event) :
  let c := run (listen_mode m so) evs in
  in_loop (at_ c) = true →
  at_ (step c (Raises KeyboardInterrupt)) = Stopped
  ∧ fs (step c (Raises KeyboardInterrupt)) = fs c.
Proof. intros c Hloop. by rewrite step_Raises. Qed.



(** C9. An exception other than [KeyboardInterrupt] raised by any call of
    the loop body is not handled: the session is over with that exception
    and a non-zero exit status, nothing more is captured or written, and
    the same happens when the engine itself raises on a segment. *)
Theorem other_exceptions_abort_the_session (m : gmap string string)
    (so : list string) (evs : list event) (e : exn) :
  e ≠ KeyboardInterrupt →
  let c := run (listen_mode m so) evs in
  in_loop (at_ c) = true →
  (let c' := step c (Raises e) in
   at_ c' = Aborted e
   ∧ (∃ n, exit_code (at_ c') = Some n ∧ n ≠ 0)
   ∧ fs c' = fs c
   ∧ ∀ evs', run c' evs' = c')
  ∧ (∀ a t v, at_ c = Transcribing a t → whisper a = Raise e →
       let c' := step c (Returns v) in
       at_ c' = Aborted e
       ∧ (∃ n, exit_code (at_ c') = Some n ∧ n ≠ 0)
       ∧ fs c' = fs c
       ∧ ∀ evs', run c' evs' = c').
Proof.
  intros He c Hloop. split.
  - intros c'. unfold c'. rewrite step_Raises, except_other by done. cbn [at_ fs].
    split; [done|]. split; [apply exit_code_Aborted|]. split; [done|].
    intros evs'. by apply run_terminal.
  - intros a t v Hat Hw c'. unfold c'.
    pose proof (session_inv_reach m so evs) as [_ Hp]. fold c in Hp.
    destruct c as [mc soc p]. cbn [at_ fs] in *. subst p.
    rewrite step_Transcribing, (transcribe_audio_present _ _ a), Hw, except_other by done.
    cbn [at_ fs]. split; [done|]. split; [apply exit_code_Aborted|]. split; [done|].
    intros evs'. by apply run_terminal.
Qed.

(** C10. Whenever a step of a listen session takes a file away, that step
    is [os.remove] on the temporary file of the running iteration, and at
    that moment the output file already ends with the line of that
    iteration's segment: the engine's text of the segment and a line
    feed, written and closed by the step before.  The removal leaves the
    output file as it is. *)
Theorem temp_file_removed_after_its_line (m : gmap string string)
    (so : list string) (evs : list event) (ev : event) (p : string) :
  let c := run (listen_mode m so) evs in
  is_Some (fs c !! p) →
  fs (step c ev) !! p = None →
  ∃ a x,
    at_ c = Removing a p x
    ∧ whisper a = Ok x
    ∧ (∃ prior, fs c !! output_text_file = Some (prior +:+ x +:+ newline))
    ∧ (p ≠ output_text_file →
       fs (step c ev) !! output_text_file = fs c !! output_text_file).
Proof.
  intros c Hp Hgone.
  destruct (step_keeps_files c ev p Hp Hgone) as (a & x & v & Hat & ->).
  pose proof (session_inv_reach m so evs) as [_ Hinv]. fold c in Hinv.
  exists a, x. destruct c as [mc soc ph]. cbn [at_ fs] in *. subst ph.
  destruct Hinv as (Hw & Hsome & Hline).
  split; [done|]. split; [done|]. split; [done|].
  intros Hne. rewrite step_Removing by done. cbn [fs next_iteration].
  by rewrite lookup_delete_ne.
Qed.

(** ** Further properties of convert mode *)

Lemma step_Converting (m : gmap string string) (so : list string) (input v : string) :
  step (Config m so (Converting input)) (Returns v)
  = match transcribe_audio m input with
    | Ok t => Config m so (Writing t)
    | Raise e => Config m so (Aborted e)
    end.
Proof. unfold step. cbn [at_ fs stdout]. by destruct (transcribe_audio m input). Qed.


(** Every step leaves alone the files that are neither the output file
    nor the temporary file of the running iteration. *)
Lemma step_other_files (c : config) (ev : event) (p : string) :
  p ≠ output_text_file → p ∉ owned_temp (at_ c) →
  (∀ a stem, at_ c = Saving a → ev = Returns stem → fs c !! temp_name stem = None → p ≠ temp_name stem) →
  fs (step c ev) !! p = fs c !! p.
Proof.
  intros Hout Hown Hsave. destruct c as [m so ph]. cbn [fs at_] in *.
  destruct ev as [v|e].
  2:{ destruct ph; try done; by destruct e. }
  destruct ph as [|a|a t|a t x|a t x| | i|x| |e]; try done.
  - destruct (m !! temp_name v) as [w|] eqn:Hv.
    + by rewrite step_Saving_taken by eauto.
    + rewrite step_Saving by done. cbn [fs]. rewrite lookup_insert_ne; [done|].
      intros Heq. by eapply Hsave.
  - rewrite step_Transcribing. by destruct (transcribe_audio m t) as [y|[]].
  - rewrite step_Appending. cbn [fs]. by rewrite append_file_lookup, decide_False.
  - unfold step. cbn [at_ fs stdout]. destruct (m !! t) as [w|]; [|done].
    cbn [next_iteration fs]. rewrite lookup_delete_ne; [done|].
    cbn in Hown. set_solver.
  - rewrite step_Converting. by destruct (transcribe_audio m i).
  - unfold step. cbn [at_ fs stdout]. unfold write_file. by rewrite lookup_insert_ne.
Qed.

Lemma step_converting (c : config) (ev : event) :
  converting (at_ c) = true → converting (at_ (step c ev)) = true.
Proof.
  destruct c as [m so ph]. destruct ph as [|a|a t|a t x|a t x| | i|x| |e]; try done; intros _.
  - destruct ev as [v|e]; [|done]. rewrite step_Converting.
    by destruct (transcribe_audio m i).
  - by destruct ev.
Qed.

Lemma run_converting (c : config) (evs : list event) :
  converting (at_ c) = true → converting (at_ (run c evs)) = true.
Proof.
  revert c. induction evs as [|ev evs IH]; intros c Hc; [done|].
  rewrite run_cons. by apply IH, step_converting.
Qed.

Lemma converting_other_files (c : config) (evs : list event) (p : string) :
  converting (at_ c) = true → p ≠ output_text_file → fs (run c evs) !! p = fs c !! p.
Proof.
  revert c. induction evs as [|ev evs IH]; intros c Hc Hp; [done|].
  rewrite run_cons, IH by (done || by apply step_converting).
  apply step_other_files; try done.
  - destruct (at_ c); try done; set_solver.
  - intros a stem Hat. by rewrite Hat in Hc.
Qed.


(** X2. Whatever the environment does and however long the run, convert
    mode touches no file but the output file: every other path, the input
    audio included, holds what it held before, and no new file appears. *)
Theorem convert_touches_only_output (input : string) (m : gmap string string)
    (so : list string) (evs : list event) (p : string) :
  p ≠ output_text_file →
  fs (run (convert_mode input m so) evs) !! p = m !! p.
Proof. intros Hp. by rewrite converting_other_files. Qed.

(** ** Further properties of listen mode *)

Lemma unlines_app (ts us : list string) :
  unlines (ts ++ us) = unlines ts +:+ unlines us.
Proof.
  induction ts as [|t ts IH]; [done|].
  cbn [unlines app]. by rewrite IH, !string_app_assoc.
Qed.

Lemma strip_prefix_app (p t : string) : strip_prefix p (p +:+ t) = Some t.
Proof.
  induction p as [|a p IH]; [by destruct t|].
  rewrite string_app_cons. cbn [strip_prefix]. by rewrite decide_True.
Qed.

Lemma recognized_print (s : string) (so : list string) :
  recognized (print s so)
  = recognized so ++ match strip_prefix "Recognized: " s with Some t => [t] | None => [] end.
Proof.
  unfold recognized, print. rewrite omap_app. f_equal.
Qed.

Lemma step_temp_named (c : config) (ev : event) :
  temp_named (at_ c) → temp_named (at_ (step c ev)).
Proof.
  destruct c as [m so ph]. cbn [at_]. intros Hn. destruct ev as [v|e].
  2:{ destruct ph; try done; by destruct e. }
  destruct ph as [|a|a t|a t x|a t x| | i|x| |e]; try done.
  - destruct (m !! temp_name v) as [w|] eqn:Hv.
    + by rewrite step_Saving_taken by eauto.
    + rewrite step_Saving by done. cbn. eauto.
  - rewrite step_Transcribing. by destruct (transcribe_audio m t) as [y|[]].
  - unfold step. cbn [at_ fs stdout]. by destruct (m !! t).
Qed.

Lemma run_temp_named (c : config) (evs : list event) :
  temp_named (at_ c) → temp_named (at_ (run c evs)).
Proof.
  revert c. induction evs as [|ev evs IH]; intros c Hc; [done|].
  rewrite run_cons. by apply IH, step_temp_named.
Qed.

Lemma listen_mode_temp_named (m : gmap string string) (so : list string) (evs : list event) :
  temp_named (at_ (run (listen_mode m so) evs)).
Proof. by apply run_temp_named. Qed.

(** One step of a listen session adds to the output file exactly the
    texts it echoes, each with its line feed. *)
Lemma step_appends (c : config) (ev : event) :
  (∀ stem, temp_name stem ≠ output_text_file) →
  temp_named (at_ c) →
  ∃ ts,
    default EmptyString (fs (step c ev) !! output_text_file)
    = default EmptyString (fs c !! output_text_file) +:+ unlines ts
    ∧ recognized (stdout (step c ev)) = recognized (stdout c) ++ ts
    ∧ (is_Some (fs c !! output_text_file) → is_Some (fs (step c ev) !! output_text_file)).
Proof.
  intros Hno Hn. destruct c as [m so ph]. cbn [at_ fs stdout] in *.
  assert (∀ c', fs c' = m → recognized (stdout c') = recognized so →
            ∃ ts, default EmptyString (fs c' !! output_text_file)
                  = default EmptyString (m !! output_text_file) +:+ unlines ts
                  ∧ recognized (stdout c') = recognized so ++ ts
                  ∧ (is_Some (m !! output_text_file) → is_Some (fs c' !! output_text_file)))
    as Hsame.
  { intros c' -> ->. exists []. cbn [unlines]. by rewrite string_app_nil_r, app_nil_r. }
  destruct ev as [v|e].
  2:{ destruct ph; try done; destruct e; (apply Hsame; [done|]);
      cbn [step except_KeyboardInterrupt stdout at_];
      first [done | by rewrite recognized_print, app_nil_r]. }
  destruct ph as [|a|a t|a t x|a t x| | i|x| |e]; try done; try by apply Hsame.
  - destruct (m !! temp_name v) as [w|] eqn:Hv.
    + rewrite step_Saving_taken by eauto. by apply Hsame.
    + rewrite step_Saving by done. exists []. cbn [fs stdout unlines].
      rewrite lookup_insert_ne by done. rewrite string_app_nil_r, recognized_print, !app_nil_r.
      done.
  - rewrite step_Transcribing.
    destruct (transcribe_audio m t) as [y|[]]; (apply Hsame; [done|]);
      cbn [except_KeyboardInterrupt stdout];
      first [done | by rewrite recognized_print, app_nil_r].
  - rewrite step_Appending. exists [x]. cbn [fs stdout unlines].
    rewrite append_file_lookup, decide_True by done. cbn [default from_option id].
    rewrite string_app_nil_r, recognized_print, strip_prefix_app. eauto.
  - destruct Hn as [stem ->]. unfold step. cbn [at_ fs stdout].
    destruct (m !! temp_name stem) as [w|]; [|by apply Hsame].
    exists []. cbn [next_iteration fs stdout unlines].
    rewrite lookup_delete_ne by done. by rewrite string_app_nil_r, recognized_print, !app_nil_r.
Qed.

Lemma run_appends (c : config) (evs : list event) :
  (∀ stem, temp_name stem ≠ output_text_file) →
  temp_named (at_ c) →
  ∃ ts,
    default EmptyString (fs (run c evs) !! output_text_file)
    = default EmptyString (fs c !! output_text_file) +:+ unlines ts
    ∧ recognized (stdout (run c evs)) = recognized (stdout c) ++ ts
    ∧ (is_Some (fs c !! output_text_file) → is_Some (fs (run c evs) !! output_text_file)).
Proof.
  intros Hno. revert c. induction evs as [|ev evs IH]; intros c Hn.
  - exists []. cbn [unlines]. by rewrite string_app_nil_r, app_nil_r.
  - rewrite run_cons.
    destruct (step_appends c ev Hno Hn) as (ts1 & Hf1 & Hr1 & Hs1).
    destruct (IH (step c ev) (step_temp_named _ _ Hn)) as (ts2 & Hf2 & Hr2 & Hs2).
    exists (ts1 ++ ts2). rewrite Hf2, Hf1, Hr2, Hr1, unlines_app, string_app_assoc, app_assoc.
    auto.
Qed.

(** *** Files that were there before the session *)

Lemma step_keeps (m0 : gmap string string) (c : config) (ev : event) :
  (∀ p, p ≠ output_text_file → is_Some (m0 !! p) → fs c !! p = m0 !! p) →
  (∀ t, t ∈ owned_temp (at_ c) → t = output_text_file ∨ m0 !! t = None) →
  (∀ p, p ≠ output_text_file → is_Some (m0 !! p) → fs (step c ev) !! p = m0 !! p)
  ∧ (∀ t, t ∈ owned_temp (at_ (step c ev)) → t = output_text_file ∨ m0 !! t = None).
Proof.
  intros Hkeep Hown. split.
  - intros p Hp Hsome. rewrite <- (Hkeep p) by done. apply step_other_files; [done|..].
    + intros Hin. destruct (Hown p Hin) as [?|Hnone]; [done|].
      rewrite Hnone in Hsome. by destruct Hsome.
    + intros a stem _ _ Hfree ->. rewrite Hkeep in Hfree by done.
      rewrite Hfree in Hsome. by destruct Hsome.
  - destruct c as [m so ph]. cbn [at_ fs] in *. destruct ev as [v|e].
    2:{ destruct ph; try done; destruct e; cbn; set_solver. }
    destruct ph as [|a|a t|a t x|a t x| | i|x| |e]; try done; try (cbn; set_solver).
    + destruct (m !! temp_name v) as [w|] eqn:Hv.
      * rewrite step_Saving_taken by eauto. cbn. set_solver.
      * rewrite step_Saving by done. cbn [at_ owned_temp]. intros t ->%elem_of_singleton.
        destruct (decide (temp_name v = output_text_file)) as [|Hne]; [by left|right].
        destruct (m0 !! temp_name v) as [w|] eqn:Hw; [|done].
        rewrite Hkeep in Hv by eauto. congruence.
    + rewrite step_Transcribing. destruct (transcribe_audio m t) as [y|[]]; cbn; set_solver.
    + unfold step. cbn [at_ fs stdout]. destruct (m !! t); cbn; set_solver.
    + rewrite step_Converting. destruct (transcribe_audio m i); cbn; set_solver.
Qed.

Lemma run_keeps (m0 : gmap string string) (c : config) (evs : list event) :
  (∀ p, p ≠ output_text_file → is_Some (m0 !! p) → fs c !! p = m0 !! p) →
  (∀ t, t ∈ owned_temp (at_ c) → t = output_text_file ∨ m0 !! t = None) →
  ∀ p, p ≠ output_text_file → is_Some (m0 !! p) → fs (run c evs) !! p = m0 !! p.
Proof.
  revert c. induction evs as [|ev evs IH]; intros c Hkeep Hown; [done|].
  rewrite run_cons. destruct (step_keeps m0 c ev Hkeep Hown) as [Hk Ho]. by apply IH.
Qed.

(** X3. A listen session never changes or removes a file that existed
    when it started, the output file apart: the temporary file always
    gets a name that is free, and only that file is removed.  This holds
    at every moment of every session, however it ends. *)
Theorem listen_keeps_existing_files (m : gmap string string) (so : list string)
    (evs : list event) (p : string) :
  p ≠ output_text_file →
  is_Some (m !! p) →
  fs (run (listen_mode m so) evs) !! p = m !! p.
Proof.
  intros Hp Hsome. by apply run_keeps.
Qed.

(** X4. As long as the output path is not a name that
    [NamedTemporaryFile] can draw, the output file of a listen session
    only ever grows at its end: what it holds after any part of a session
    is the beginning of what it holds later, and once it exists it never
    goes away.  Lines already appended survive whatever happens next. *)
Theorem listen_output_append_only (m : gmap string string) (so : list string)
    (evs1 evs2 : list event) :
  (∀ stem, temp_name stem ≠ output_text_file) →
  let before := run (listen_mode m so) evs1 in
  let after := run (listen_mode m so) (evs1 ++ evs2) in
  (∃ more, default EmptyString (fs after !! output_text_file)
           = default EmptyString (fs before !! output_text_file) +:+ more)
  ∧ (is_Some (fs before !! output_text_file) → is_Some (fs after !! output_text_file)).
Proof.
  intros Hno before after. unfold after. rewrite run_app. fold before.
  destruct (run_appends before evs2 Hno) as (ts & Hf & _ & Hs).
  { apply listen_mode_temp_named. }
  split; [by exists (unlines ts)|done].
Qed.


(** *** Why a listen session is where it is *)







(** *** The console *)

Lemma last_print (s : string) (so : list string) : last (print s so) = Some s.
Proof. unfold print. apply last_snoc. Qed.

Lemma step_console (c : config) (ev : event) :
  (∀ s, console_shows (at_ c) = Some s → last (stdout c) = Some s) →
  ∀ s, console_shows (at_ (step c ev)) = Some s → last (stdout (step c ev)) = Some s.
Proof.
  intros Hc. destruct c as [m so ph]. cbn [at_ stdout] in *. destruct ev as [v|e].
  2:{ destruct ph; try (by apply Hc); destruct e; cbn; intros s Hs; simplify_eq;
      apply last_print. }
  destruct ph as [|a|a t|a t x|a t x| | i|x| |e]; try done.
  - destruct (m !! temp_name v) as [w|] eqn:Hv.
    + by rewrite step_Saving_taken by eauto.
    + rewrite step_Saving by done. cbn. intros s [= <-]. apply last_print.
  - rewrite step_Transcribing. destruct (transcribe_audio m t) as [y|[]]; try done.
    cbn. intros s [= <-]. apply last_print.
  - rewrite step_Appending. cbn. intros s [= <-]. apply last_print.
  - unfold step. cbn [at_ fs stdout]. destruct (m !! t) as [w|]; [|done].
    cbn. intros s [= <-]. apply last_print.
  - rewrite step_Converting. by destruct (transcribe_audio m i).
  - unfold step. cbn. intros s [= <-]. apply last_print.
Qed.

(** X8. The console tells what the program is doing.  At every moment of
    a run of [main], in either mode: while a capture is pending the last
    line printed is the prompt of [record_audio_chunk]; while a
    transcription is pending it is the line of [transcribe_audio] naming
    the very file being transcribed; once a line is appended it is the
    echo of that text; after an interrupt it is the farewell; after a
    conversion it is the line naming the output file. *)
Theorem console_shows_pending_call (md : mode) (m : gmap string string)
    (evs : list event) (s : string) :
  let c := run (main md m) evs in
  console_shows (at_ c) = Some s →
  last (stdout c) = Some s.
Proof.
  intros c. unfold c. clear c. revert s.
  induction evs as [|ev evs IH] using rev_ind.
  - destruct md; intros s [= <-]; apply last_print.
  - rewrite run_snoc. by apply step_console.
Qed.

(** *** Two edge cases of the paths *)

(** X9. The one way a listen iteration loses its line: the output file
    does not exist yet and [NamedTemporaryFile] draws exactly the output
    path.  The segment is saved under that path, its text is appended to
    the audio bytes, and [os.remove] then deletes the file: the iteration
    ends with the file system as it was and no output file. *)
Theorem temp_name_collision_loses_the_line (audio stem t : string)
    (m : gmap string string) (so : list string) :
  whisper audio = Ok t →
  m !! output_text_file = None →
  temp_name stem = output_text_file →
  let c := run (listen_mode m so) (iteration audio stem) in
  at_ c = Listening ∧ fs c = m ∧ fs c !! output_text_file = None.
Proof.
  intros Hw Hnone Hcol c. unfold c, listen_mode, next_iteration, iteration.
  rewrite !run_cons, run_nil, step_Listening, step_Saving by by rewrite Hcol.
  rewrite step_Transcribing, (transcribe_audio_present _ _ audio) by apply lookup_insert_eq.
  rewrite Hw, step_Appending, step_Removing.
  - cbn [next_iteration at_ fs]. rewrite Hcol. unfold append_file.
    rewrite insert_insert_eq, delete_insert_id by done. done.
  - rewrite Hcol. unfold append_file. rewrite lookup_insert_eq. eauto.
Qed.

(** X10. Converting a file onto itself.  When the input path is the
    output path, a successful run replaces the audio by its text; a
    second run then hands that text to the engine instead of the audio,
    and leaves in the file whatever the engine makes of it, or the text
    untouched when the engine raises. *)
Theorem convert_in_place (wav t : string) (m : gmap string string) (so : list string)
    (v1 v2 v3 v4 : string) :
  m !! output_text_file = Some wav →
  whisper wav = Ok t →
  let c1 := run (convert_mode output_text_file m so) [Returns v1; Returns v2] in
  let c2 := run (convert_mode output_text_file (fs c1) (stdout c1)) [Returns v3; Returns v4] in
  fs c1 !! output_text_file = Some t
  ∧ match whisper t with
    | Ok t' => at_ c2 = Finished ∧ fs c2 !! output_text_file = Some t'
    | Raise e => at_ c2 = Aborted e ∧ fs c2 !! output_text_file = Some t
    end.
Proof.
  intros Hm Hw c1 c2.
  assert (transcribe_audio m output_text_file = Ok t) as H1
    by by rewrite (transcribe_audio_present _ _ wav).
  unfold c2, c1. rewrite (convert_ok _ t) by done. cbn [fs stdout].
  split; [apply lookup_insert_eq|].
  destruct (whisper t) as [t'|e] eqn:Ht.
  - rewrite (convert_ok _ t').
    + cbn [at_ fs]. split; [done|apply lookup_insert_eq].
    + rewrite (transcribe_audio_present _ _ t); [done|apply lookup_insert_eq].
  - rewrite (convert_raise _ e).
    + cbn [at_ fs]. split; [done|apply lookup_insert_eq].
    + rewrite (transcribe_audio_present _ _ t); [done|apply lookup_insert_eq].
Qed.

(** *** Where the text comes from *)






End App.

(** ** The scenarios of the specification, run on the machine *)

(** Scenario of the specification: two segments, "hello" then "world". *)
Example hello_world :
  let c := run toy_whisper "out.txt" (main listen ∅)
             (session [("RIFFhello", "k3x"); ("RIFFworld", "p0q")]) in
  at_ c = Listening
  ∧ fs c = {[ "out.txt" := "hello" +:+ newline +:+ "world" +:+ newline ]}
  ∧ lines (default EmptyString (fs c !! "out.txt")) = ["hello"; "world"].
Proof. vm_compute. done. Qed.

(** Scenario of the specification: [convert missing.wav out.txt]. *)
Example convert_missing :
  let c := run toy_whisper "out.txt" (main (convert "missing.wav") ∅) [Returns EmptyString] in
  at_ c = Aborted RuntimeError ∧ exit_code (at_ c) = Some 1 ∧ fs c = ∅.
Proof. vm_compute. done. Qed.

Lemma convert_writes_transcription_witness :
  let m : gmap string string := {[ "hello.wav" := "RIFFhello"; "out.txt" := "stale text" ]} in
  transcribe_audio toy_whisper m "hello.wav" = Ok "hello"
  ∧ fs (run toy_whisper "out.txt" (convert_mode "hello.wav" m []) [Returns EmptyString; Returns EmptyString])
      !! "out.txt" = Some "hello".
Proof.
  intros m.
  assert (transcribe_audio toy_whisper m "hello.wav" = Ok "hello") as H
    by (vm_compute; reflexivity).
  split; [exact H|].
  exact (proj1 (proj2 (proj2
    (convert_writes_transcription toy_whisper "out.txt" "hello.wav" "hello" m [] EmptyString EmptyString H)))).
Defined.

Lemma convert_failure_writes_nothing_witness :
  let m : gmap string string := {[ "out.txt" := "kept" ]} in
  m !! "missing.wav" = None
  ∧ fs (run toy_whisper "out.txt" (convert_mode "missing.wav" m []) [Returns EmptyString])
    = m.
Proof.
  intros m.
  assert (m !! "missing.wav" = None) as H by (vm_compute; reflexivity).
  split; [exact H|].
  exact (proj1 (proj2 (proj2
    (convert_failure_writes_nothing toy_whisper "out.txt" "missing.wav" RuntimeError
       m [] EmptyString [] (or_introl (conj H eq_refl)))))).
Defined.

Lemma silence_gives_empty_text_witness :
  let m : gmap string string := {[ "silence.wav" := "RIFFsilence" ]} in
  fs (run toy_whisper "out.txt" (convert_mode "silence.wav" m []) [Returns EmptyString; Returns EmptyString])
    !! "out.txt" = Some EmptyString
  ∧ fs (run toy_whisper "out.txt" (listen_mode m []) (iteration "RIFFsilence" "k3x"))
      !! "out.txt" = Some newline.
Proof.
  intros m.
  assert (transcribe_audio toy_whisper m "silence.wav" = Ok EmptyString) as H1
    by (vm_compute; reflexivity).
  assert (toy_whisper "RIFFsilence" = Ok EmptyString) as H2 by (vm_compute; reflexivity).
  assert (m !! temp_name "k3x" = None) as H3 by (vm_compute; reflexivity).
  assert (temp_name "k3x" ≠ "out.txt") as H4 by (vm_compute; discriminate).
  pose proof (silence_gives_empty_text toy_whisper "out.txt" "silence.wav" "RIFFsilence"
                "k3x" m [] EmptyString EmptyString H1 H2 H3 H4) as [Hc (_ & Hl & _)].
  split; [exact Hc|exact Hl].
Defined.

(** C2 as it is written does not hold: the file is opened for appending,
    so what it held before the session stays in front, and a text with a
    line feed in it takes more than one line.  One captured segment, two
    lines in the file, both times. *)
Lemma listen_line_count_counterexample :
  (let m : gmap string string := {[ "out.txt" := "earlier" +:+ newline ]} in
   let c := run toy_whisper "out.txt" (listen_mode m []) (session [("RIFFhello", "k3x")]) in
   transcribed toy_whisper [("RIFFhello", "k3x")] ["hello"]
   ∧ at_ c = Listening
   ∧ lines (default EmptyString (fs c !! "out.txt")) = ["earlier"; "hello"]
   ∧ lines (default EmptyString (fs c !! "out.txt")) ≠ ["hello"])
  ∧ (let c := run toy_whisper "out.txt" (listen_mode ∅ []) (session [("RIFFdictation", "k3x")]) in
     transcribed toy_whisper [("RIFFdictation", "k3x")] ["first" +:+ newline +:+ "second"]
     ∧ at_ c = Listening
     ∧ lines (default EmptyString (fs c !! "out.txt")) = ["first"; "second"]
     ∧ length (lines (default EmptyString (fs c !! "out.txt"))) ≠ 1%nat).
Proof.
  split; cbv zeta.
  - split; [by repeat constructor|]. vm_compute. by repeat split.
  - split; [by repeat constructor|]. vm_compute. by repeat split.
Qed.

Lemma listen_appends_in_capture_order_witness :
  let its := [("RIFFhello", "k3x"); ("RIFFworld", "p0q")] in
  let c := run toy_whisper "out.txt" (listen_mode ∅ []) (session its) in
  transcribed toy_whisper its ["hello"; "world"]
  ∧ fresh_stems "out.txt" ∅ its
  ∧ lines (default EmptyString (fs c !! "out.txt")) = ["hello"; "world"].
Proof.
  intros its c.
  assert (transcribed toy_whisper its ["hello"; "world"]) as H1 by (by repeat constructor).
  assert (fresh_stems "out.txt" ∅ its) as H2
    by (repeat constructor; (vm_compute; reflexivity) || (vm_compute; discriminate)).
  split; [exact H1|]. split; [exact H2|].
  pose proof (listen_appends_in_capture_order toy_whisper "out.txt" its ["hello"; "world"]
                ∅ [] H1 H2) as (_ & _ & _ & Hlines).
  refine (proj1 (Hlines _ _)); [vm_compute; reflexivity|by repeat constructor].
Defined.

(** C3 as it is written does not hold: the engine raises on the segment,
    the session is over, and the temporary file is still there. *)
Lemma temp_file_left_counterexample :
  let c := run toy_whisper "out.txt" (listen_mode ∅ [])
             [Returns "RIFFcorrupt"; Returns "k3x"; Returns EmptyString] in
  at_ c = Aborted RuntimeError
  ∧ fs c !! temp_name "k3x" = Some "RIFFcorrupt"
  ∧ ∀ evs, fs (run toy_whisper "out.txt" c evs) !! temp_name "k3x" = Some "RIFFcorrupt".
Proof.
  cbv zeta. split; [vm_compute; reflexivity|]. split; [vm_compute; reflexivity|].
  intros evs. rewrite run_terminal; vm_compute; reflexivity.
Qed.

(** C5 as it is written does not hold: Ctrl+C while the transcription of
    a segment is pending stops the loop there and then, and the segment's
    text never reaches the output file; Ctrl+C while the capture is
    pending stops it as well. *)
Lemma interrupt_preempts_counterexample :
  let c := run toy_whisper "out.txt" (listen_mode ∅ [])
             [Returns "RIFFhello"; Returns "k3x"] in
  at_ c = Transcribing "RIFFhello" (temp_name "k3x")
  ∧ at_ (step toy_whisper "out.txt" c (Raises KeyboardInterrupt)) = Stopped
  ∧ fs (step toy_whisper "out.txt" c (Raises KeyboardInterrupt)) !! "out.txt" = None
  ∧ at_ (listen_mode ∅ []) = Listening
  ∧ at_ (step toy_whisper "out.txt" (listen_mode ∅ []) (Raises KeyboardInterrupt)) = Stopped.
Proof. vm_compute. by repeat split. Qed.

Lemma interrupt_stops_the_pending_call_witness :
  let c := run toy_whisper "out.txt" (listen_mode ∅ [])
             [Returns "RIFFhello"; Returns "k3x"] in
  in_loop (at_ c) = true
  ∧ at_ (step toy_whisper "out.txt" c (Raises KeyboardInterrupt)) = Stopped
  ∧ fs (step toy_whisper "out.txt" c (Raises KeyboardInterrupt)) = fs c.
Proof.
  intros c.
  assert (in_loop (at_ c) = true) as H by (vm_compute; reflexivity).
  split; [exact H|].
  exact (interrupt_stops_the_pending_call toy_whisper "out.txt" ∅ []
           [Returns "RIFFhello"; Returns "k3x"] H).
Defined.


Lemma other_exceptions_abort_the_session_witness :
  let c := run toy_whisper "out.txt" (listen_mode ∅ [])
             (iteration "RIFFhello" "k3x" ++ [Returns "RIFFworld"; Returns "p0q"; Returns EmptyString]) in
  OSError ≠ KeyboardInterrupt
  ∧ in_loop (at_ c) = true
  ∧ at_ (step toy_whisper "out.txt" c (Raises OSError)) = Aborted OSError
  ∧ ∀ evs', run toy_whisper "out.txt" (step toy_whisper "out.txt" c (Raises OSError)) evs'
            = step toy_whisper "out.txt" c (Raises OSError).
Proof.
  intros c.
  assert (OSError ≠ KeyboardInterrupt) as H1 by discriminate.
  assert (in_loop (at_ c) = true) as H2 by (vm_compute; reflexivity).
  split; [exact H1|]. split; [exact H2|].
  pose proof (other_exceptions_abort_the_session toy_whisper "out.txt" ∅ []
                (iteration "RIFFhello" "k3x" ++ [Returns "RIFFworld"; Returns "p0q"; Returns EmptyString])
                OSError H1 H2) as [(Hat & _ & _ & Hstay) _].
  split; [exact Hat|exact Hstay].
Defined.

Lemma temp_file_removed_after_its_line_witness :
  let evs := [Returns "RIFFhello"; Returns "k3x"; Returns EmptyString; Returns EmptyString] in
  let c := run toy_whisper "out.txt" (listen_mode ∅ []) evs in
  is_Some (fs c !! temp_name "k3x")
  ∧ fs (step toy_whisper "out.txt" c (Returns EmptyString)) !! temp_name "k3x" = None
  ∧ ∃ a x,
      at_ c = Removing a (temp_name "k3x") x
      ∧ toy_whisper a = Ok x
      ∧ (∃ prior, fs c !! "out.txt" = Some (prior +:+ x +:+ newline))
      ∧ (temp_name "k3x" ≠ "out.txt" →
         fs (step toy_whisper "out.txt" c (Returns EmptyString)) !! "out.txt"
         = fs c !! "out.txt").
Proof.
  intros evs c.
  assert (is_Some (fs c !! temp_name "k3x")) as H1 by (vm_compute; eauto).
  assert (fs (step toy_whisper "out.txt" c (Returns EmptyString)) !! temp_name "k3x" = None)
    as H2 by (vm_compute; reflexivity).
  split; [exact H1|]. split; [exact H2|].
  exact (temp_file_removed_after_its_line toy_whisper "out.txt" ∅ [] evs
           (Returns EmptyString) (temp_name "k3x") H1 H2).
Defined.

(** ** The further properties, on concrete runs *)

(** No temporary name is the path [out.txt]. *)
Lemma out_txt_is_no_temp_name : ∀ stem, temp_name stem ≠ "out.txt".
Proof. intros stem H. vm_compute in H. discriminate H. Qed.

Lemma convert_touches_only_output_witness :
  let m : gmap string string := {[ "hello.wav" := "RIFFhello"; "notes.txt" := "mine" ]} in
  "hello.wav" ≠ "out.txt"
  ∧ fs (run toy_whisper "out.txt" (convert_mode "hello.wav" m [])
          [Returns EmptyString; Returns EmptyString; Raises OSError]) !! "hello.wav"
    = Some "RIFFhello".
Proof.
  intros m.
  assert ("hello.wav" ≠ "out.txt") as H by discriminate.
  split; [exact H|].
  exact (convert_touches_only_output toy_whisper "out.txt" "hello.wav" m []
           [Returns EmptyString; Returns EmptyString; Raises OSError] "hello.wav" H).
Defined.

Lemma listen_keeps_existing_files_witness :
  let m : gmap string string := {[ "/tmp/tmpk3x.wav" := "someone else's" ]} in
  let evs := [Returns "RIFFhello"; Returns "k3x"; Returns "p0q"; Returns EmptyString;
              Returns EmptyString; Returns EmptyString] in
  "/tmp/tmpk3x.wav" ≠ "out.txt"
  ∧ is_Some (m !! "/tmp/tmpk3x.wav")
  ∧ fs (run toy_whisper "out.txt" (listen_mode m []) evs) !! "/tmp/tmpk3x.wav"
    = Some "someone else's".
Proof.
  intros m evs.
  assert ("/tmp/tmpk3x.wav" ≠ "out.txt") as H1 by discriminate.
  assert (is_Some (m !! "/tmp/tmpk3x.wav")) as H2 by (vm_compute; eauto).
  split; [exact H1|]. split; [exact H2|].
  exact (listen_keeps_existing_files toy_whisper "out.txt" m [] evs "/tmp/tmpk3x.wav" H1 H2).
Defined.

Lemma listen_output_append_only_witness :
  let evs1 := iteration "RIFFhello" "k3x" in
  let evs2 := [Returns "RIFFworld"; Returns "p0q"; Raises OSError] in
  (∀ stem, temp_name stem ≠ "out.txt")
  ∧ ∃ more,
      default EmptyString
        (fs (run toy_whisper "out.txt" (listen_mode ∅ []) (evs1 ++ evs2)) !! "out.txt")
      = default EmptyString
          (fs (run toy_whisper "out.txt" (listen_mode ∅ []) evs1) !! "out.txt") +:+ more.
Proof.
  intros evs1 evs2. split; [exact out_txt_is_no_temp_name|].
  exact (proj1 (listen_output_append_only toy_whisper "out.txt" ∅ [] evs1 evs2
                  out_txt_is_no_temp_name)).
Defined.


Lemma console_shows_pending_call_witness :
  let evs := [Returns "RIFFhello"; Returns "k3x"] in
  let c := run toy_whisper "out.txt" (main listen ∅) evs in
  console_shows "out.txt" (at_ c) = Some "Transcribing audio file: /tmp/tmpk3x.wav"
  ∧ last (stdout c) = Some "Transcribing audio file: /tmp/tmpk3x.wav".
Proof.
  intros evs c.
  assert (console_shows "out.txt" (at_ c) = Some "Transcribing audio file: /tmp/tmpk3x.wav")
    as H by (vm_compute; reflexivity).
  split; [exact H|].
  exact (console_shows_pending_call toy_whisper "out.txt" listen ∅ evs _ H).
Defined.

Lemma temp_name_collision_loses_the_line_witness :
  let c := run toy_whisper "/tmp/tmpk3x.wav" (listen_mode ∅ []) (iteration "RIFFhello" "k3x") in
  toy_whisper "RIFFhello" = Ok "hello"
  ∧ temp_name "k3x" = "/tmp/tmpk3x.wav"
  ∧ at_ c = Listening
  ∧ fs c = ∅.
Proof.
  intros c.
  assert (toy_whisper "RIFFhello" = Ok "hello") as H1 by (vm_compute; reflexivity).
  assert ((∅ : gmap string string) !! "/tmp/tmpk3x.wav" = None) as H2 by (vm_compute; reflexivity).
  assert (temp_name "k3x" = "/tmp/tmpk3x.wav") as H3 by (vm_compute; reflexivity).
  split; [exact H1|]. split; [exact H3|].
  pose proof (temp_name_collision_loses_the_line toy_whisper "/tmp/tmpk3x.wav" "RIFFhello"
                "k3x" "hello" ∅ [] H1 H2 H3) as (Hat & Hfs & _).
  split; [exact Hat|exact Hfs].
Defined.

Lemma convert_in_place_witness :
  let m : gmap string string := {[ "talk.wav" := "RIFFhello" ]} in
  let c1 := run toy_whisper "talk.wav" (convert_mode "talk.wav" m [])
              [Returns EmptyString; Returns EmptyString] in
  let c2 := run toy_whisper "talk.wav" (convert_mode "talk.wav" (fs c1) (stdout c1))
              [Returns EmptyString; Returns EmptyString] in
  m !! "talk.wav" = Some "RIFFhello"
  ∧ toy_whisper "RIFFhello" = Ok "hello"
  ∧ fs c1 !! "talk.wav" = Some "hello"
  ∧ fs c2 !! "talk.wav" = Some EmptyString.
Proof.
  intros m c1 c2.
  assert (m !! "talk.wav" = Some "RIFFhello") as H1 by (vm_compute; reflexivity).
  assert (toy_whisper "RIFFhello" = Ok "hello") as H2 by (vm_compute; reflexivity).
  split; [exact H1|]. split; [exact H2|].
  pose proof (convert_in_place toy_whisper "talk.wav" "RIFFhello" "hello" m []
                EmptyString EmptyString EmptyString EmptyString H1 H2) as [Hc1 Hc2].
  split; [exact Hc1|]. exact (proj2 Hc2).
Defined.
